(** * report/controls.go: node controls, the control catalog and the wire codec

    A shallow embedding of [report/controls.go] of scope.

    - [time.Time] is an instant counted in nanoseconds, as [Z]; the zero
      [time.Time] (the "not set" sentinel) is [0], [IsZero] tests for it and
      [Before] is the strict order on instants.
    - The process clock [mtime.Now()] is passed explicitly as the reading
      [now] it returns at the call.
    - Go maps ([Controls]) live in a heap of maps indexed by locations, since
      a Go map is a reference: [Controls.Merge] allocates a fresh one.
    - The codec works on a stream of msgpack tokens; a decoder is a
      state-and-error monad over the remaining stream. *)

From Stdlib Require Import ZArith List DecimalString DecimalPos DecimalZ.
From stdpp Require Import base gmap strings list.
Import ListNotations.

Open Scope string_scope.
Open Scope Z_scope.
Set Warnings "-register-all".

(* ------------------------------------------------------------------------- *)
(** ** time.Time *)

Definition time := Z.

Definition IsZero (t : time) : bool := Z.eqb t 0.

Definition Before (t u : time) : bool := Z.ltb t u.

(** Modelled from the spec: [renderTime] and [parseTime] of the report
    package are not part of controls.go.  The spec asks for a render/parse
    pair whose output re-parses to the same instant, and for the unset
    sentinel to give the empty string (the [omitempty] wire field is then
    left out).  Instants are rendered as their decimal digits. *)
Definition renderTime (t : time) : string :=
  if IsZero t then "" else NilZero.string_of_int (Z.to_int t).

(** Modelled from the spec: the parse half of the pair above; a string that
    does not parse gives the zero time. *)
Definition parseTime (s : string) : time :=
  match NilZero.int_of_string s with
  | Some d => Z.of_int d
  | None => 0
  end.

(* ------------------------------------------------------------------------- *)
(** ** StringSet *)

Definition StringSet := list string.

(** Modelled from the spec: [StringSet] (report/string_set.go) is an
    external set of identifiers; [MakeStringSet()] is the empty set. *)
Definition MakeStringSet : StringSet := [].

(** Modelled from the spec: [StringSet.Add] returns a new set holding the
    receiver's identifiers and the added ones, each once. *)
Definition StringSet_Add (s : StringSet) (ids : list string) : StringSet :=
  fold_left (fun acc id => if existsb (String.eqb id) acc then acc else (acc ++ [id])%list)
    ids s.

(* ------------------------------------------------------------------------- *)
(** ** NodeControls *)

Record NodeControls := mkNodeControls {
  Timestamp : time;
  Controls : StringSet
}.

Definition emptyNodeControls : NodeControls := mkNodeControls 0 MakeStringSet.

Definition MakeNodeControls : NodeControls := emptyNodeControls.

(** [func (nc NodeControls) Merge(other NodeControls) NodeControls] *)
Definition Merge (nc other : NodeControls) : NodeControls :=
  if Before (Timestamp nc) (Timestamp other) then other else nc.

(** [func (nc NodeControls) Add(ids ...string) NodeControls]; [now] is the
    value of [mtime.Now()] during the call. *)
Definition Add (now : time) (nc : NodeControls) (ids : list string) : NodeControls :=
  mkNodeControls now (StringSet_Add (Controls nc) ids).

(* ------------------------------------------------------------------------- *)
(** ** Disabled generic JSON entry points *)

(** Outcome of a Go call: a result, a returned error, or a panic. *)
Inductive go_result (A : Type) : Type :=
  | GoOk (a : A)
  | GoErr (e : string)
  | GoPanic (msg : string).
Arguments GoOk {A} a.
Arguments GoErr {A} e.
Arguments GoPanic {A} msg.

(** [func (NodeControls) MarshalJSON() ([]byte, error)] *)
Definition MarshalJSON (nc : NodeControls) : go_result (list Byte.byte) :=
  GoPanic "MarshalJSON shouldn't be used, use CodecEncodeSelf instead".

(** [func ( *NodeControls) UnmarshalJSON(b []byte) error]: the receiver
    after the call, or the error. *)
Definition UnmarshalJSON (nc : NodeControls) (b : list Byte.byte) : go_result NodeControls :=
  GoPanic "UnmarshalJSON shouldn't be used, use CodecDecodeSelf instead".

(* ------------------------------------------------------------------------- *)
(** ** Controls: the catalog, a Go map held by reference *)

Module Catalog.

(** [type Control struct { ID, Human, Icon string; Rank int }] *)
Record Control := mkControl {
  ID : string;
  Human : string;
  Icon : string;
  Rank : Z
}.

(** [type Controls map[string]Control] *)
Abbreviation Controls := (gmap string Control).

(** A Go map value is a reference to a map in the heap. *)
Abbreviation loc := positive.
Abbreviation heap := (gmap loc Controls).

(** The contents a map reference denotes; a nil map ranges as empty. *)
Definition contents (h : heap) (l : loc) : Controls := default ∅ (h !! l).

(** [Controls{}]: allocate a fresh empty map. *)
Definition make_map (h : heap) : loc * heap :=
  let r := fresh (dom h) in (r, <[r := ∅]> h).

(** [m[k] = v] through the reference [r]. *)
Definition map_store (r : loc) (k : string) (v : Control) (h : heap) : heap :=
  match h !! r with
  | Some m => <[r := <[k := v]> m]> h
  | None => h
  end.

(** [for k, v := range src { r[k] = v }] *)
Definition range_store (r : loc) (src : Controls) (h : heap) : heap :=
  map_fold (map_store r) h src.

(** [func (cs Controls) Copy() Controls] *)
Definition Copy (h : heap) (cs : loc) : loc * heap :=
  let '(result, h1) := make_map h in
  (result, range_store result (contents h1 cs) h1).

(** [func (cs Controls) Merge(other Controls) Controls] *)
Definition Merge (h : heap) (cs other : loc) : loc * heap :=
  let '(result, h1) := Copy h cs in
  (result, range_store result (contents h1 other) h1).

(** [func (cs Controls) AddControl(c Control)]: mutates [cs] in place. *)
Definition AddControl (h : heap) (cs : loc) (c : Control) : heap :=
  map_store cs (ID c) c h.

(** [func (cs Controls) AddControls(controls []Control)]:
    [for _, c := range controls { cs[c.ID] = c }]. *)
Definition AddControls (h : heap) (cs : loc) (controls : list Control) : heap :=
  fold_left (fun h c => map_store cs (ID c) c h) controls h.

End Catalog.

(* ------------------------------------------------------------------------- *)
(** ** The wire: msgpack values and their token stream *)

(** A decoded msgpack value, as a producer sends it. *)
Inductive wire : Type :=
  | WNil
  | WStr (s : string)
  | WInt (z : Z)
  | WArr (l : list wire)
  | WMap (l : list (wire * wire)).

(** The stream the decoder reads: containers announce their length. *)
Inductive token : Type :=
  | TNil
  | TStr (s : string)
  | TInt (z : Z)
  | TArr (n : Z)
  | TMap (n : Z)
  | TBreak.

Fixpoint wire_tokens (w : wire) : list token :=
  match w with
  | WNil => [TNil]
  | WStr s => [TStr s]
  | WInt z => [TInt z]
  | WArr l =>
      TArr (Z.of_nat (length l)) ::
        (fix elems (l : list wire) : list token :=
           match l with
           | [] => []
           | x :: r => wire_tokens x ++ elems r
           end) l
  | WMap l =>
      TMap (Z.of_nat (length l)) ::
        (fix entries (l : list (wire * wire)) : list token :=
           match l with
           | [] => []
           | (k, v) :: r => wire_tokens k ++ wire_tokens v ++ entries r
           end) l
  end%list.

(** The keys of a map payload. *)
Definition wire_keys (w : wire) : list wire :=
  match w with
  | WMap l => map fst l
  | _ => []
  end.

(* ------------------------------------------------------------------------- *)
(** ** The decoder monad *)

Inductive dres (A : Type) : Type :=
  | DOk (a : A) (rest : list token)
  | DErr (msg : string).
Arguments DOk {A} a rest.
Arguments DErr {A} msg.

(** A decoder reads from the remaining stream; a codec error (a panic that
    [Decoder.Decode] turns into its returned error) ends the decode. *)
Definition Dec (A : Type) : Type := list token -> dres A.

Definition dret {A} (a : A) : Dec A := fun ts => DOk a ts.

Definition dfail {A} (msg : string) : Dec A := fun _ => DErr msg.

Definition dbind {A B} (m : Dec A) (k : A -> Dec B) : Dec B :=
  fun ts => match m ts with
            | DOk a ts' => k a ts'
            | DErr e => DErr e
            end.

Notation "'do' x <- m ;; k" := (dbind m (fun x => k))
  (at level 60, m at next level, right associativity).

(** The msgpack decode driver's primitives. *)

(** [r.TryDecodeAsNil()]: consumes a nil and reports it. *)
Definition TryDecodeAsNil : Dec bool := fun ts =>
  match ts with
  | TNil :: r => DOk true r
  | _ => DOk false ts
  end.

(** [r.ReadMapStart()]: the announced number of entries. *)
Definition ReadMapStart : Dec Z := fun ts =>
  match ts with
  | TMap n :: r => DOk n r
  | _ => DErr "msgpack: cannot read container length: not a map"
  end.

(** [r.CheckBreak()]: the end of an indefinite-length container. *)
Definition CheckBreak : Dec bool := fun ts =>
  match ts with
  | TBreak :: r => DOk true r
  | _ => DOk false ts
  end.

(** [r.DecodeBytes(buf, true, true)]: a string or nil as bytes. *)
Definition DecodeBytes : Dec string := fun ts =>
  match ts with
  | TStr s :: r => DOk s r
  | TNil :: r => DOk "" r
  | _ => DErr "msgpack: cannot decode bytes"
  end.

(** [r.DecodeString()] *)
Definition DecodeString : Dec string := DecodeBytes.

(** Modelled from the spec: [StringSet.CodecDecodeSelf] (report/string_set.go)
    reads the identifier sequence, an array of strings, as the new set. *)
Fixpoint decode_strings (n : nat) : Dec StringSet :=
  match n with
  | O => dret []
  | S n' => do s <- DecodeString ;; do rest <- decode_strings n' ;; dret (s :: rest)
  end.

Definition StringSet_CodecDecodeSelf : Dec StringSet := fun ts =>
  match ts with
  | TArr n :: r => if n <? 0 then DErr "unsupported" else decode_strings (Z.to_nat n) r
  | _ => DErr "msgpack: cannot decode array"
  end.

(* ------------------------------------------------------------------------- *)
(** ** NodeControls.CodecDecodeSelf *)

(** One pass of the loop body: read the key as bytes, view it as a string
    through [&slc[0]] (an empty key indexes an empty slice, a runtime panic
    that the codec returns as an error), then the [switch] on the key.  The
    [switch] has no [default] branch: the value of any other key is left in
    the stream. *)
Definition decode_entry (nc : NodeControls) : Dec NodeControls :=
  do k <- DecodeBytes ;;
  if String.eqb k "" then dfail "runtime error: index out of range"
  else if String.eqb k "timestamp" then
    do s <- DecodeString ;; dret (mkNodeControls (parseTime s) (Controls nc))
  else if String.eqb k "controls" then
    do isnil <- TryDecodeAsNil ;;
    if isnil then dret nc
    else do cs <- StringSet_CodecDecodeSelf ;; dret (mkNodeControls (Timestamp nc) cs)
  else dret nc.

(** [for i := 0; length < 0 || i < length; i++ { ... }]; each pass reads at
    least one token, so [fuel] larger than the stream never runs out. *)
Fixpoint decode_entries (fuel : nat) (length i : Z) (nc : NodeControls) : Dec NodeControls :=
  match fuel with
  | O => dfail "decode: stream exhausted"
  | S fuel' =>
      if (length <? 0) || (i <? length) then
        do brk <- (if length <? 0 then CheckBreak else dret false) ;;
        if brk then dret nc
        else do nc' <- decode_entry nc ;; decode_entries fuel' length (i + 1) nc'
      else dret nc
  end.

(** [func (nc *NodeControls) CodecDecodeSelf(decoder *codec.Decoder)]: the
    receiver [nc] is updated in place; the result is its value afterwards. *)
Definition CodecDecodeSelf (nc : NodeControls) : Dec NodeControls := fun ts =>
  (do isnil <- TryDecodeAsNil ;;
   if isnil then dret nc
   else do length <- ReadMapStart ;; decode_entries (S (List.length ts)) length 0 nc) ts.

(** Decoding a payload into the receiver [nc]. *)
Definition decode_into (nc : NodeControls) (w : wire) : dres NodeControls :=
  CodecDecodeSelf nc (wire_tokens w).

(* ------------------------------------------------------------------------- *)
(** ** NodeControls.CodecEncodeSelf *)

(** [type wireNodeControls struct]: [Timestamp] with tag
    [timestamp,omitempty], [Controls] with tag [controls,omitempty]. *)
Record wireNodeControls := mkWireNodeControls {
  wTimestamp : string;
  wControls : StringSet
}.

(** The codec's encoding of the struct: a map of its fields in declaration
    order under their tag names, an [omitempty] field left out when it is
    empty.  The [StringSet] is written as its array of identifiers. *)
Definition encode_wireNodeControls (w : wireNodeControls) : wire :=
  WMap ((if String.eqb (wTimestamp w) "" then []
         else [(WStr "timestamp", WStr (wTimestamp w))]) ++
        (match wControls w with
         | [] => []
         | cs => [(WStr "controls", WArr (map WStr cs))]
         end))%list.

(** [func (nc *NodeControls) CodecEncodeSelf(encoder *codec.Encoder)] *)
Definition CodecEncodeSelf (nc : NodeControls) : wire :=
  encode_wireNodeControls (mkWireNodeControls (renderTime (Timestamp nc)) (Controls nc)).

(* ------------------------------------------------------------------------- *)
(** ** Evaluations on small inputs *)

Example render_parse_7 : parseTime (renderTime 7) = 7.
Proof. reflexivity. Qed.

Example render_neg : renderTime (-42) = "-42".
Proof. reflexivity. Qed.

Example decode_two_keys :
  decode_into MakeNodeControls
    (WMap [(WStr "controls", WArr [WStr "pause"; WStr "resume"]);
           (WStr "timestamp", WStr "12")])
  = DOk (mkNodeControls 12 ["pause"; "resume"]) [].
Proof. reflexivity. Qed.

Example encode_roundtrip_small :
  decode_into MakeNodeControls (CodecEncodeSelf (mkNodeControls 5 ["a"]))
  = DOk (mkNodeControls 5 ["a"]) [].
Proof. reflexivity. Qed.

Example decode_unknown_key_small :
  decode_into MakeNodeControls
    (WMap [(WStr "extra", WStr "v"); (WStr "timestamp", WStr "7")])
  = DOk (mkNodeControls 0 []) [TStr "timestamp"; TStr "7"].
Proof. reflexivity. Qed.

(* ------------------------------------------------------------------------- *)
(** ** Supporting lemmas *)

Lemma StringSet_Add_keeps (ids : list string) :
  forall (acc : StringSet), incl acc (StringSet_Add acc ids).
Proof.
  unfold StringSet_Add.
  induction ids as [|id ids IH]; intros acc; simpl.
  - apply incl_refl.
  - destruct (existsb (String.eqb id) acc).
    + apply IH.
    + eapply incl_tran; [|apply IH]. apply incl_appl, incl_refl.
Qed.

Lemma StringSet_Add_adds (ids : list string) :
  forall (acc : StringSet), incl ids (StringSet_Add acc ids).
Proof.
  unfold StringSet_Add.
  induction ids as [|id ids IH]; intros acc x Hx; simpl in *.
  - contradiction.
  - destruct Hx as [<- | Hx]; [|apply IH; exact Hx].
    apply (StringSet_Add_keeps ids).
    destruct (existsb (String.eqb id) acc) eqn:E.
    + apply existsb_exists in E as (y & Hy & Hxy).
      apply String.eqb_eq in Hxy. subst y. exact Hy.
    + apply in_or_app. right. left. reflexivity.
Qed.

Section CatalogHeap.
Import Catalog.

Lemma range_store_spec (r : loc) (src : Controls) (h : heap) (m0 : Controls) :
  h !! r = Some m0 -> range_store r src h = <[r := src ∪ m0]> h.
Proof.
  intros Hr. unfold range_store.
  apply (map_fold_weak_ind (fun res src => res = <[r := src ∪ m0]> h)).
  - rewrite (left_id_L ∅ (∪)). symmetry. apply insert_id, Hr.
  - intros k v m res _ ->. unfold map_store.
    rewrite lookup_insert_eq, insert_insert_eq, insert_union_l. reflexivity.
Qed.

Lemma contents_insert_ne (h : heap) (l r : loc) (m : Controls) :
  l <> r -> contents (<[r := m]> h) l = contents h l.
Proof. intros Hne. unfold contents. rewrite lookup_insert_ne; congruence. Qed.

End CatalogHeap.

Lemma renderTime_nonempty (t : time) : t <> 0 -> renderTime t <> "".
Proof.
  intros Ht. unfold renderTime, IsZero.
  rewrite (proj2 (Z.eqb_neq t 0) Ht).
  destruct (Z.to_int t) as [u|u]; simpl; [|discriminate].
  destruct u; simpl; discriminate.
Qed.

Lemma renderTime_zero : renderTime 0 = "".
Proof. reflexivity. Qed.

Lemma parseTime_renderTime (t : time) : t <> 0 -> parseTime (renderTime t) = t.
Proof.
  intros Ht. unfold renderTime, IsZero, parseTime.
  rewrite (proj2 (Z.eqb_neq t 0) Ht).
  rewrite NilZero.isi; [apply DecimalZ.of_to| |].
  - destruct t as [|p|p]; simpl; [congruence| |discriminate].
    intros [= Hp]. exact (Unsigned.to_uint_nonnil p Hp).
  - destruct t as [|p|p]; simpl; [congruence|discriminate|].
    intros [= Hp]. exact (Unsigned.to_uint_nonnil p Hp).
Qed.

Lemma wire_tokens_strings (l : list string) :
  wire_tokens (WArr (map WStr l)) = TArr (Z.of_nat (length l)) :: map TStr l.
Proof.
  simpl. rewrite length_map. f_equal.
  induction l as [|s l IH]; simpl; [reflexivity|]. rewrite IH. reflexivity.
Qed.

Lemma decode_strings_map (l : list string) (rest : list token) :
  decode_strings (length l) (map TStr l ++ rest)%list = DOk l rest.
Proof.
  induction l as [|s l IH]; simpl; [reflexivity|].
  unfold dbind at 1. simpl. unfold dbind. rewrite IH. reflexivity.
Qed.

Lemma StringSet_decode_map (l : list string) (rest : list token) :
  StringSet_CodecDecodeSelf (TArr (Z.of_nat (length l)) :: map TStr l ++ rest)%list
  = DOk l rest.
Proof.
  simpl. replace (Z.of_nat (length l) <? 0) with false by (symmetry; apply Z.ltb_ge; lia).
  rewrite Nat2Z.id. apply decode_strings_map.
Qed.

(** Unfolding the decode loop one pass at a time. *)

Lemma CodecDecodeSelf_nil (nc : NodeControls) (rest : list token) :
  CodecDecodeSelf nc (TNil :: rest) = DOk nc rest.
Proof. reflexivity. Qed.

Lemma CodecDecodeSelf_map (nc : NodeControls) (n : Z) (rest : list token) :
  CodecDecodeSelf nc (TMap n :: rest)
  = decode_entries (S (S (List.length rest))) n 0 nc rest.
Proof. reflexivity. Qed.

Lemma decode_entries_step (fuel : nat) (n i : Z) (nc : NodeControls) (ts : list token) :
  0 <= i < n ->
  decode_entries (S fuel) n i nc ts
  = match decode_entry nc ts with
    | DOk nc' ts' => decode_entries fuel n (i + 1) nc' ts'
    | DErr e => DErr e
    end.
Proof.
  intros Hi. simpl.
  replace (n <? 0) with false by (symmetry; apply Z.ltb_ge; lia).
  replace (i <? n) with true by (symmetry; apply Z.ltb_lt; lia).
  reflexivity.
Qed.

Lemma decode_entries_done (fuel : nat) (n i : Z) (nc : NodeControls) (ts : list token) :
  0 <= n <= i -> decode_entries (S fuel) n i nc ts = DOk nc ts.
Proof.
  intros Hi. simpl.
  replace (n <? 0) with false by (symmetry; apply Z.ltb_ge; lia).
  replace (i <? n) with false by (symmetry; apply Z.ltb_ge; lia).
  reflexivity.
Qed.

Lemma decode_entry_timestamp (nc : NodeControls) (s : string) (rest : list token) :
  decode_entry nc (TStr "timestamp" :: TStr s :: rest)
  = DOk (mkNodeControls (parseTime s) (Controls nc)) rest.
Proof. reflexivity. Qed.

Lemma decode_entry_controls (nc : NodeControls) (l : list string) (rest : list token) :
  decode_entry nc (TStr "controls" :: TArr (Z.of_nat (length l)) :: map TStr l ++ rest)%list
  = DOk (mkNodeControls (Timestamp nc) l) rest.
Proof.
  unfold decode_entry, dbind. cbn -[StringSet_CodecDecodeSelf].
  rewrite StringSet_decode_map. reflexivity.
Qed.

Lemma decode_entry_other (nc : NodeControls) (k : string) (rest : list token) :
  k <> "" -> k <> "timestamp" -> k <> "controls" ->
  decode_entry nc (TStr k :: rest) = DOk nc rest.
Proof.
  intros H1 H2 H3. unfold decode_entry, dbind. simpl.
  rewrite (proj2 (String.eqb_neq _ _) H1), (proj2 (String.eqb_neq _ _) H2),
    (proj2 (String.eqb_neq _ _) H3).
  reflexivity.
Qed.

(** The token stream of an encoded value. *)
Lemma CodecEncodeSelf_tokens (x : NodeControls) :
  Timestamp x <> 0 ->
  wire_tokens (CodecEncodeSelf x)
  = match Controls x with
    | [] => [TMap 1; TStr "timestamp"; TStr (renderTime (Timestamp x))]
    | cs => TMap 2 :: TStr "timestamp" :: TStr (renderTime (Timestamp x)) ::
              TStr "controls" :: TArr (Z.of_nat (length cs)) :: map TStr cs ++ []
    end%list.
Proof.
  destruct x as [t cs]; simpl; intros Ht.
  unfold CodecEncodeSelf, encode_wireNodeControls; simpl.
  rewrite (proj2 (String.eqb_neq _ _) (renderTime_nonempty t Ht)).
  destruct cs as [|c cs]; [reflexivity|].
  change (TMap 2 :: TStr "timestamp" :: TStr (renderTime t) ::
          TStr "controls" :: wire_tokens (WArr (map WStr (c :: cs))) ++ []
          = TMap 2 :: TStr "timestamp" :: TStr (renderTime t) ::
          TStr "controls" :: TArr (Z.of_nat (length (c :: cs))) :: map TStr (c :: cs) ++ [])%list.
  rewrite wire_tokens_strings. reflexivity.
Qed.

(** Payloads carrying only the two known keys, with values of the expected
    shape: decoding applies their entries in order to the receiver. *)

Fixpoint entries_tokens (l : list (wire * wire)) : list token :=
  match l with
  | [] => []
  | (k, v) :: r => wire_tokens k ++ wire_tokens v ++ entries_tokens r
  end%list.

Lemma wire_tokens_map (l : list (wire * wire)) :
  wire_tokens (WMap l) = TMap (Z.of_nat (length l)) :: entries_tokens l.
Proof. reflexivity. Qed.

Lemma wire_tokens_nonempty (w : wire) : (1 <= List.length (wire_tokens w))%nat.
Proof. destruct w; simpl; lia. Qed.

Lemma entries_tokens_length (l : list (wire * wire)) :
  (List.length l <= List.length (entries_tokens l))%nat.
Proof.
  induction l as [|[k v] l IH]; simpl; [lia|].
  rewrite !length_app. pose proof (wire_tokens_nonempty k). lia.
Qed.

(** One entry with a known key, and the receiver before and after it. *)
Inductive known_entry : wire * wire -> NodeControls -> NodeControls -> Prop :=
  | KTimestamp nc s :
      known_entry (WStr "timestamp", WStr s) nc (mkNodeControls (parseTime s) (Controls nc))
  | KControls nc l :
      known_entry (WStr "controls", WArr (map WStr l)) nc (mkNodeControls (Timestamp nc) l)
  | KControlsNil nc :
      known_entry (WStr "controls", WNil) nc nc.

Inductive known_entries : list (wire * wire) -> NodeControls -> NodeControls -> Prop :=
  | KNil nc : known_entries [] nc nc
  | KCons e r nc nc' nc'' :
      known_entry e nc nc' -> known_entries r nc' nc'' -> known_entries (e :: r) nc nc''.

Lemma decode_entry_known (e : wire * wire) (nc nc' : NodeControls) (rest : list token) :
  known_entry e nc nc' ->
  decode_entry nc (wire_tokens (fst e) ++ wire_tokens (snd e) ++ rest)%list = DOk nc' rest.
Proof.
  intros He. destruct He as [nc s | nc l | nc]; simpl fst; simpl snd.
  - apply decode_entry_timestamp.
  - rewrite wire_tokens_strings. apply decode_entry_controls.
  - reflexivity.
Qed.

Lemma decode_entries_known (l : list (wire * wire)) (nc nc' : NodeControls) :
  known_entries l nc nc' ->
  forall (fuel : nat) (n i : Z) (rest : list token),
    0 <= i -> n = i + Z.of_nat (length l) -> (length l < fuel)%nat ->
    decode_entries fuel n i nc (entries_tokens l ++ rest)%list = DOk nc' rest.
Proof.
  induction 1 as [nc | [k v] r nc nc' nc'' He Hr IH];
    intros fuel n i rest Hi Hn Hf; (destruct fuel as [|fuel]; [simpl in Hf; lia|]).
  - simpl in Hn. apply decode_entries_done. lia.
  - simpl in Hn, Hf. rewrite decode_entries_step by lia.
    simpl entries_tokens. rewrite <- !app_assoc.
    rewrite (decode_entry_known (k, v) nc nc' _ He).
    apply IH; lia.
Qed.

(** Decoding a payload of known keys into the receiver [nc]. *)
Lemma decode_known_payload (l : list (wire * wire)) (nc nc' : NodeControls) :
  known_entries l nc nc' -> decode_into nc (WMap l) = DOk nc' [].
Proof.
  intros Hk. unfold decode_into. rewrite wire_tokens_map, CodecDecodeSelf_map.
  rewrite <- (app_nil_r (entries_tokens l)).
  apply (decode_entries_known l nc nc' Hk); [lia | lia |].
  rewrite length_app. pose proof (entries_tokens_length l). simpl. lia.
Qed.



(** A nil payload leaves the receiver as it was. *)
Lemma decode_nil_payload (nc : NodeControls) : decode_into nc WNil = DOk nc [].
Proof. reflexivity. Qed.

(* ------------------------------------------------------------------------- *)
(** ** NodeControls.Merge *)

(** C1: [a.Merge(b)] is [b] exactly when [a.Timestamp] is strictly before
    [b.Timestamp], and [a] exactly otherwise (ties and a later [a]). *)
Theorem Merge_last_writer_wins (a b : NodeControls) :
  (Timestamp a < Timestamp b /\ Merge a b = b) \/
  (Timestamp b <= Timestamp a /\ Merge a b = a).
Proof.
  unfold Merge, Before.
  destruct (Z.ltb_spec (Timestamp a) (Timestamp b)); [left | right]; auto.
Qed.

(** C3 (as stated, refuted): there is no pair with different timestamps
    on which [Merge] is asymmetric; both orders return the later operand. *)
Lemma Merge_no_asymmetry_on_distinct_timestamps :
  ~ exists a b : NodeControls,
      Timestamp a <> Timestamp b /\ Merge a b <> Merge b a.
Proof.
  intros (a & b & Hne & Hdiff). apply Hdiff.
  unfold Merge, Before.
  destruct (Z.ltb_spec (Timestamp a) (Timestamp b));
    destruct (Z.ltb_spec (Timestamp b) (Timestamp a)); auto; lia.
Qed.

(** C3 (amended): with different timestamps [a.Merge(b) = b.Merge(a)]
    (the operand with the later timestamp); with equal timestamps
    [a.Merge(b) = a] and [b.Merge(a) = b], which differ whenever [a <> b]. *)
Theorem Merge_symmetric_unless_tie (a b : NodeControls) :
  (Timestamp a <> Timestamp b /\ Merge a b = Merge b a) \/
  (Timestamp a = Timestamp b /\ Merge a b = a /\ Merge b a = b).
Proof.
  unfold Merge, Before.
  destruct (Z.eq_dec (Timestamp a) (Timestamp b)) as [Heq | Hne].
  - right. rewrite Heq, Z.ltb_irrefl. auto.
  - left. split; [exact Hne|].
    destruct (Z.ltb_spec (Timestamp a) (Timestamp b));
      destruct (Z.ltb_spec (Timestamp b) (Timestamp a)); auto; lia.
Qed.

(* ------------------------------------------------------------------------- *)
(** ** NodeControls.Add *)

(** C8 (as stated, refuted): when the clock reads 5 and [s.Timestamp] is
    10, [s.Add("b")] carries timestamp 5, earlier than [s.Timestamp]. *)
Lemma Add_timestamp_before_receiver :
  Timestamp (Add 5 (mkNodeControls 10 ["a"]) ["b"])
  < Timestamp (mkNodeControls 10 ["a"]).
Proof. simpl. lia. Qed.

(** C8 (amended): [s.Add(ids)] is a new value whose [Controls] contains
    every identifier of [s.Controls] and of [ids] and whose [Timestamp] is
    the clock reading [now] of the call, which is [>= s.Timestamp] exactly
    when the clock reads at least [s.Timestamp]. *)
Theorem Add_union_at_clock (now : time) (s : NodeControls) (ids : list string) :
  Timestamp (Add now s ids) = now /\
  incl (Controls s) (Controls (Add now s ids)) /\
  incl ids (Controls (Add now s ids)) /\
  (Timestamp s <= Timestamp (Add now s ids) <-> Timestamp s <= now).
Proof.
  simpl. split; [reflexivity|]. split; [apply StringSet_Add_keeps|].
  split; [apply StringSet_Add_adds | reflexivity].
Qed.

(* ------------------------------------------------------------------------- *)
(** ** Disabled JSON entry points *)

(** C7: [MarshalJSON] and [UnmarshalJSON] panic on every receiver and
    every input; neither returns a result nor an error. *)
Theorem JSON_entry_points_panic (nc : NodeControls) (b : list Byte.byte) :
  (exists msg, MarshalJSON nc = GoPanic msg) /\
  (exists msg, UnmarshalJSON nc b = GoPanic msg).
Proof. split; eexists; reflexivity. Qed.

(* ------------------------------------------------------------------------- *)
(** ** Controls.Merge *)

(** C9: for live maps [A] and [B], [A.Merge(B)] is a freshly allocated map
    holding every entry of [B] and every entry of [A] whose key [B] lacks
    ([B] wins on a shared key), and every map that existed before the call,
    [A] and [B] among them, is left as it was. *)
Theorem Catalog_Merge_right_biased (h : Catalog.heap) (a b : Catalog.loc) :
  is_Some (h !! a) -> is_Some (h !! b) ->
  let '(r, h') := Catalog.Merge h a b in
  h !! r = None /\
  (exists m, h' !! r = Some m /\
     forall k, m !! k = match Catalog.contents h b !! k with
                        | Some v => Some v
                        | None => Catalog.contents h a !! k
                        end) /\
  (forall l m, h !! l = Some m -> h' !! l = Some m).
Proof.
  intros [ma Ha] [mb Hb].
  unfold Catalog.Merge, Catalog.Copy, Catalog.make_map.
  set (r := fresh (dom h)).
  assert (Hr : h !! r = None) by (apply not_elem_of_dom, is_fresh).
  assert (Har : a <> r) by congruence.
  assert (Hbr : b <> r) by congruence.
  rewrite contents_insert_ne by exact Har.
  rewrite (range_store_spec r (Catalog.contents h a) (<[r:=∅]> h) ∅)
    by apply lookup_insert_eq.
  rewrite insert_insert_eq, (right_id_L ∅ (∪)).
  rewrite contents_insert_ne by exact Hbr.
  rewrite (range_store_spec r _ _ (Catalog.contents h a)) by apply lookup_insert_eq.
  rewrite insert_insert_eq.
  split; [exact Hr|]. split.
  - eexists. split; [apply lookup_insert_eq|].
    intros k. rewrite lookup_union.
    destruct (Catalog.contents h b !! k), (Catalog.contents h a !! k); reflexivity.
  - intros l m Hl. rewrite lookup_insert_ne; [exact Hl|]. congruence.
Qed.

Definition ctrlA : Catalog.Control := Catalog.mkControl "c1" "Restart" "fa-repeat" 1.
Definition ctrlB : Catalog.Control := Catalog.mkControl "c1" "Restart now" "fa-refresh" 2.

Definition catalog_heap : Catalog.heap :=
  <[1%positive := {[ "c1" := ctrlA ]}]> (<[2%positive := {[ "c1" := ctrlB ]}]> ∅).

Lemma Catalog_Merge_right_biased_witness :
  is_Some (catalog_heap !! 1%positive) /\ is_Some (catalog_heap !! 2%positive) /\
  (let '(r, h') := Catalog.Merge catalog_heap 1%positive 2%positive in
   h' !! r = Some {[ "c1" := ctrlB ]}).
Proof.
  assert (H1 : is_Some (catalog_heap !! 1%positive)) by (eexists; reflexivity).
  assert (H2 : is_Some (catalog_heap !! 2%positive)) by (eexists; reflexivity).
  split; [exact H1|]. split; [exact H2|].
  pose proof (Catalog_Merge_right_biased catalog_heap 1%positive 2%positive H1 H2) as HM.
  destruct (Catalog.Merge catalog_heap 1%positive 2%positive) as [r h'].
  destruct HM as (_ & (m & Hm & Hk) & _).
  rewrite Hm. f_equal. apply map_eq. intros k.
  assert (E1 : Catalog.contents catalog_heap 1%positive = {[ "c1" := ctrlA ]})
    by reflexivity.
  assert (E2 : Catalog.contents catalog_heap 2%positive = {[ "c1" := ctrlB ]})
    by reflexivity.
  rewrite Hk, E1, E2.
  destruct (String.eq_dec k "c1") as [->|Hne].
  - rewrite lookup_singleton_eq. reflexivity.
  - rewrite !lookup_singleton_ne by congruence. reflexivity.
Defined.

(* ------------------------------------------------------------------------- *)
(** ** The wire codec *)

(** C4: a value with a set timestamp, encoded by [CodecEncodeSelf] and
    decoded by [CodecDecodeSelf] into a fresh [MakeNodeControls()], comes
    back with the same timestamp and the same identifiers, and the whole
    encoding is consumed. *)
Theorem CodecEncodeSelf_roundtrip (x : NodeControls) :
  Timestamp x <> 0 ->
  decode_into MakeNodeControls (CodecEncodeSelf x) = DOk x [].
Proof.
  intros Ht. unfold decode_into. rewrite (CodecEncodeSelf_tokens x Ht).
  destruct x as [t cs]; simpl in Ht |- *.
  destruct cs as [|c cs].
  - rewrite CodecDecodeSelf_map, decode_entries_step by lia.
    rewrite decode_entry_timestamp, decode_entries_done by lia.
    rewrite parseTime_renderTime by exact Ht. reflexivity.
  - rewrite CodecDecodeSelf_map, decode_entries_step by lia.
    rewrite decode_entry_timestamp, decode_entries_step by lia.
    change (TStr c :: (map TStr cs ++ []))%list with (map TStr (c :: cs) ++ [])%list.
    change (Z.of_nat (S (length cs))) with (Z.of_nat (length (c :: cs))).
    rewrite decode_entry_controls. cbn [List.length].
    rewrite decode_entries_done by lia.
    rewrite parseTime_renderTime by exact Ht. reflexivity.
Qed.

Lemma CodecEncodeSelf_roundtrip_witness :
  Timestamp (mkNodeControls 1476123000 ["pause"; "resume"]) <> 0 /\
  decode_into MakeNodeControls (CodecEncodeSelf (mkNodeControls 1476123000 ["pause"; "resume"]))
  = DOk (mkNodeControls 1476123000 ["pause"; "resume"]) [].
Proof.
  assert (H : Timestamp (mkNodeControls 1476123000 ["pause"; "resume"]) <> 0)
    by (simpl; lia).
  split; [exact H | apply (CodecEncodeSelf_roundtrip _ H)].
Defined.

(** C6: the encoding is a map whose [timestamp] entry (a string) is present
    exactly when the timestamp is set and whose [controls] entry is present
    exactly when the set is non-empty; [MakeNodeControls()] encodes to the
    empty map. *)
Theorem CodecEncodeSelf_field_presence (nc : NodeControls) :
  (exists entries,
     CodecEncodeSelf nc = WMap entries /\
     ((exists s, In (WStr "timestamp", WStr s) entries) <-> Timestamp nc <> 0) /\
     (In (WStr "timestamp") (map fst entries) <-> Timestamp nc <> 0) /\
     (In (WStr "controls") (map fst entries) <-> Controls nc <> [])) /\
  CodecEncodeSelf MakeNodeControls = WMap [].
Proof.
  split; [|reflexivity].
  destruct nc as [t cs]. unfold CodecEncodeSelf, encode_wireNodeControls. simpl.
  destruct (Z.eq_dec t 0) as [-> | Ht].
  - rewrite renderTime_zero. simpl.
    destruct cs as [|c cs]; eexists; (split; [reflexivity|]); simpl.
    + split; [|split]; split; intros H; try destruct H as [? []]; try contradiction;
        try congruence.
    + split; [|split]; split; intros H; try congruence.
      * destruct H as [s [H|[]]]. discriminate.
      * destruct H as [H|[]]. discriminate.
      * left. reflexivity.
  - rewrite (proj2 (String.eqb_neq _ _) (renderTime_nonempty t Ht)).
    destruct cs as [|c cs]; eexists; (split; [reflexivity|]); simpl.
    + split; [|split]; split; intros H; try congruence; auto.
      * exists (renderTime t). left. reflexivity.
      * destruct H as [H|[]]. discriminate.
    + split; [|split]; split; intros H; try congruence; auto.
      exists (renderTime t). left. reflexivity.
Qed.

(** C2 (code defect): the key [switch] of [CodecDecodeSelf] has no branch
    that skips the value of an unknown key.  With the extra entry
    [extra: "v"] in front of [timestamp], the value ["v"] is read as the
    second key, the loop ends after its two passes, and the timestamp entry
    is never read: the result keeps the zero timestamp, while the payload
    without the extra entry decodes to timestamp 7.  An unknown entry with
    a non-string value makes the next key read fail. *)
Theorem decode_unknown_field_not_skipped :
  decode_into MakeNodeControls
    (WMap [(WStr "extra", WStr "v"); (WStr "timestamp", WStr (renderTime 7))])
  = DOk (mkNodeControls 0 []) [TStr "timestamp"; TStr "7"] /\
  decode_into MakeNodeControls
    (WMap [(WStr "timestamp", WStr (renderTime 7))])
  = DOk (mkNodeControls 7 []) [] /\
  decode_into MakeNodeControls
    (WMap [(WStr "extra", WInt 1); (WStr "controls", WArr [WStr "a"])])
  = DErr "msgpack: cannot decode bytes".
Proof. split; [|split]; reflexivity. Qed.

(** C5 (code defect, the one of C2): a payload with no [timestamp] key,
    [{"x": "timestamp", "7": 0}], decoded into [MakeNodeControls()], does
    not keep the unset timestamp: the unskipped value ["timestamp"] is read
    as a key and the next key ["7"] as its value. *)
Theorem decode_without_timestamp_key_sets_timestamp :
  let p := WMap [(WStr "x", WStr "timestamp"); (WStr (renderTime 7), WInt 0)] in
  ~ In (WStr "timestamp") (wire_keys p) /\
  decode_into MakeNodeControls p = DOk (mkNodeControls 7 []) [TInt 0].
Proof.
  simpl. split; [|reflexivity].
  intros [H | [H | []]]; discriminate.
Qed.

(** C10 (code defect, the one of C2): decoding is in place, but a payload
    with no [timestamp] key still overwrites the receiver's timestamp: the
    receiver [{Timestamp: 3, Controls: ["a"]}] decodes
    [{"x": "timestamp", "7": 0}] to [{Timestamp: 7, Controls: ["a"]}]. *)
Theorem decode_in_place_absent_key_overwrites :
  let p := WMap [(WStr "x", WStr "timestamp"); (WStr (renderTime 7), WInt 0)] in
  ~ In (WStr "timestamp") (wire_keys p) /\
  decode_into (mkNodeControls 3 ["a"]) p = DOk (mkNodeControls 7 ["a"]) [TInt 0].
Proof.
  simpl. split; [|reflexivity].
  intros [H | [H | []]]; discriminate.
Qed.

(* ------------------------------------------------------------------------- *)
(** ** Further properties of the catalog operations *)

Section CatalogMore.
Import Catalog.

Lemma contents_fresh_insert (h : heap) (l : loc) :
  h !! fresh (dom h) = None ->
  contents (<[fresh (dom h) := ∅]> h) l = contents h l.
Proof.
  intros Hr. destruct (decide (l = fresh (dom h))) as [->|Hne].
  - unfold contents. rewrite lookup_insert_eq, Hr. reflexivity.
  - apply contents_insert_ne, Hne.
Qed.

(** The heap after [Copy]: the fresh map holds the source's entries. *)
Lemma Copy_heap (h : heap) (cs : loc) :
  Copy h cs = (fresh (dom h), <[fresh (dom h) := contents h cs]> h).
Proof.
  unfold Copy, make_map.
  assert (Hr : h !! fresh (dom h) = None) by (apply not_elem_of_dom, is_fresh).
  rewrite contents_fresh_insert by exact Hr.
  rewrite (range_store_spec _ _ _ ∅) by apply lookup_insert_eq.
  rewrite insert_insert_eq, (right_id_L ∅ (∪)). reflexivity.
Qed.

(** The heap after [Merge] of two live maps. *)
Lemma Merge_heap (h : heap) (a b : loc) :
  is_Some (h !! b) ->
  Merge h a b = (fresh (dom h), <[fresh (dom h) := contents h b ∪ contents h a]> h).
Proof.
  intros [mb Hb]. unfold Merge. rewrite Copy_heap.
  assert (Hr : h !! fresh (dom h) = None) by (apply not_elem_of_dom, is_fresh).
  rewrite contents_insert_ne by congruence.
  rewrite (range_store_spec _ _ _ (contents h a)) by apply lookup_insert_eq.
  rewrite insert_insert_eq. reflexivity.
Qed.

Lemma AddControls_heap (controls : list Control) :
  forall (h : heap) (cs : loc) (m : Controls), h !! cs = Some m ->
  AddControls h cs controls
  = <[cs := fold_left (fun m c => <[ID c := c]> m) controls m]> h.
Proof.
  unfold AddControls.
  induction controls as [|c controls IH]; intros h cs m Hm; simpl.
  - symmetry. apply insert_id, Hm.
  - unfold map_store at 2. rewrite Hm.
    rewrite (IH _ _ (<[ID c := c]> m)) by apply lookup_insert_eq.
    apply insert_insert_eq.
Qed.

Lemma fold_insert_lookup (controls : list Control) (m : Controls) (k : string) :
  fold_left (fun m c => <[ID c := c]> m) controls m !! k
  = match find (fun c => String.eqb (ID c) k) (rev controls) with
    | Some c => Some c
    | None => m !! k
    end.
Proof.
  induction controls as [|c controls IH] using rev_ind; simpl; [reflexivity|].
  rewrite fold_left_app, rev_app_distr. simpl.
  destruct (String.eqb_spec (ID c) k) as [<- | Hne].
  - apply lookup_insert_eq.
  - rewrite lookup_insert_ne by exact Hne. exact IH.
Qed.

End CatalogMore.

(** X1: [cs.Copy()] allocates a new map whose entries are those of [cs]
    (none for a nil map), and every map that existed before is left as it
    was. *)
Theorem Catalog_Copy_fresh (h : Catalog.heap) (cs : Catalog.loc) :
  let '(r, h') := Catalog.Copy h cs in
  h !! r = None /\ h' !! r = Some (Catalog.contents h cs) /\
  (forall l m, h !! l = Some m -> h' !! l = Some m).
Proof.
  rewrite Copy_heap.
  assert (Hr : h !! fresh (dom h) = None) by (apply not_elem_of_dom, is_fresh).
  split; [exact Hr|]. split; [apply lookup_insert_eq|].
  intros l m Hl. rewrite lookup_insert_ne by congruence. exact Hl.
Qed.

(** X2: [cs.AddControl(c)] on a live map mutates it in place: no map is
    allocated, the map [cs] gains (or has overwritten) the entry [c.ID -> c]
    and keeps its other entries, and every other map is untouched. *)
Theorem Catalog_AddControl_in_place (h : Catalog.heap) (cs : Catalog.loc) (c : Catalog.Control) :
  is_Some (h !! cs) ->
  dom (Catalog.AddControl h cs c) = dom h /\
  (forall k, Catalog.contents (Catalog.AddControl h cs c) cs !! k
             = if String.eqb (Catalog.ID c) k then Some c else Catalog.contents h cs !! k) /\
  (forall l, l <> cs -> Catalog.AddControl h cs c !! l = h !! l).
Proof.
  intros [m Hm]. unfold Catalog.AddControl, Catalog.map_store, Catalog.contents.
  rewrite Hm. split; [|split].
  - rewrite dom_insert_L. apply elem_of_dom_2 in Hm. set_solver.
  - intros k. rewrite lookup_insert_eq. simpl.
    destruct (String.eqb_spec (Catalog.ID c) k) as [<- | Hne].
    + apply lookup_insert_eq.
    + rewrite lookup_insert_ne by exact Hne. reflexivity.
  - intros l Hl. apply lookup_insert_ne. congruence.
Qed.

Lemma Catalog_AddControl_in_place_witness :
  is_Some (catalog_heap !! 1%positive) /\
  Catalog.contents (Catalog.AddControl catalog_heap 1%positive ctrlB) 1%positive !! "c1"
  = Some ctrlB.
Proof.
  assert (H : is_Some (catalog_heap !! 1%positive)) by (eexists; reflexivity).
  split; [exact H|].
  destruct (Catalog_AddControl_in_place catalog_heap 1%positive ctrlB H) as (_ & Hk & _).
  rewrite Hk. reflexivity.
Defined.

(** X3: [cs.AddControls(controls)] on a live map stores every control under
    its ID in sequence order, so the last control with a given ID wins; keys
    no control names keep their entries, and other maps are untouched. *)
Theorem Catalog_AddControls_last_wins (h : Catalog.heap) (cs : Catalog.loc)
    (controls : list Catalog.Control) :
  is_Some (h !! cs) ->
  (forall k, Catalog.contents (Catalog.AddControls h cs controls) cs !! k
     = match find (fun c => String.eqb (Catalog.ID c) k) (rev controls) with
       | Some c => Some c
       | None => Catalog.contents h cs !! k
       end) /\
  (forall l, l <> cs -> Catalog.AddControls h cs controls !! l = h !! l).
Proof.
  intros [m Hm]. rewrite (AddControls_heap controls h cs m Hm). split.
  - intros k. unfold Catalog.contents. rewrite lookup_insert_eq, Hm. simpl.
    apply fold_insert_lookup.
  - intros l Hl. apply lookup_insert_ne. congruence.
Qed.

Lemma Catalog_AddControls_last_wins_witness :
  is_Some (catalog_heap !! 1%positive) /\
  Catalog.contents (Catalog.AddControls catalog_heap 1%positive [ctrlB; ctrlA]) 1%positive !! "c1"
  = Some ctrlA.
Proof.
  assert (H : is_Some (catalog_heap !! 1%positive)) by (eexists; reflexivity).
  split; [exact H|].
  destruct (Catalog_AddControls_last_wins catalog_heap 1%positive [ctrlB; ctrlA] H) as [Hk _].
  rewrite Hk. reflexivity.
Defined.

(** X4: the catalog returned by [A.Merge(B)] is a separate map: adding a
    control to it afterwards (the mutating [AddControl]) changes neither
    [A] nor [B]. *)
Theorem Catalog_Merge_then_AddControl_isolated (h : Catalog.heap) (a b : Catalog.loc)
    (c : Catalog.Control) :
  is_Some (h !! a) -> is_Some (h !! b) ->
  let '(r, h') := Catalog.Merge h a b in
  Catalog.AddControl h' r c !! a = h !! a /\ Catalog.AddControl h' r c !! b = h !! b.
Proof.
  intros [ma Ha] Hb. rewrite (Merge_heap h a b Hb).
  destruct Hb as [mb Hb].
  assert (Hr : h !! fresh (dom h) = None) by (apply not_elem_of_dom, is_fresh).
  unfold Catalog.AddControl, Catalog.map_store. rewrite lookup_insert_eq.
  rewrite insert_insert_eq.
  split; apply lookup_insert_ne; congruence.
Qed.

Lemma Catalog_Merge_then_AddControl_isolated_witness :
  is_Some (catalog_heap !! 1%positive) /\ is_Some (catalog_heap !! 2%positive) /\
  (let '(r, h') := Catalog.Merge catalog_heap 1%positive 2%positive in
   Catalog.AddControl h' r ctrlA !! 2%positive = catalog_heap !! 2%positive).
Proof.
  assert (H1 : is_Some (catalog_heap !! 1%positive)) by (eexists; reflexivity).
  assert (H2 : is_Some (catalog_heap !! 2%positive)) by (eexists; reflexivity).
  split; [exact H1|]. split; [exact H2|].
  pose proof (Catalog_Merge_then_AddControl_isolated catalog_heap 1%positive 2%positive ctrlA H1 H2)
    as HM.
  destruct (Catalog.Merge catalog_heap 1%positive 2%positive) as [r h'].
  exact (proj2 HM).
Defined.

(* ------------------------------------------------------------------------- *)
(** ** Further properties of NodeControls.Merge *)


(** X6: [MakeNodeControls()] is a neutral element of [Merge] for every value
    whose timestamp is after the zero time, on either side. *)
Theorem Merge_MakeNodeControls_neutral (a : NodeControls) :
  0 < Timestamp a ->
  Merge MakeNodeControls a = a /\ Merge a MakeNodeControls = a.
Proof.
  intros H. unfold Merge, Before. simpl.
  rewrite (proj2 (Z.ltb_lt 0 (Timestamp a)) H).
  rewrite (proj2 (Z.ltb_ge (Timestamp a) 0)) by lia.
  split; reflexivity.
Qed.

Lemma Merge_MakeNodeControls_neutral_witness :
  0 < Timestamp (mkNodeControls 5 ["restart"]) /\
  Merge MakeNodeControls (mkNodeControls 5 ["restart"]) = mkNodeControls 5 ["restart"].
Proof.
  assert (H : 0 < Timestamp (mkNodeControls 5 ["restart"])) by (simpl; lia).
  split; [exact H | exact (proj1 (Merge_MakeNodeControls_neutral _ H))].
Defined.

(** X7: a value that carries the zero timestamp is dropped when merged into
    [MakeNodeControls()] (the tie keeps the receiver), whatever controls it
    holds, while merging [MakeNodeControls()] into it keeps it. *)
Theorem Merge_zero_timestamp_into_empty (a : NodeControls) :
  Timestamp a = 0 ->
  Merge MakeNodeControls a = MakeNodeControls /\ Merge a MakeNodeControls = a.
Proof.
  intros H. unfold Merge, Before. simpl. rewrite H. split; reflexivity.
Qed.

Lemma Merge_zero_timestamp_into_empty_witness :
  Timestamp (mkNodeControls 0 ["restart"]) = 0 /\
  Merge MakeNodeControls (mkNodeControls 0 ["restart"]) = MakeNodeControls.
Proof.
  assert (H : Timestamp (mkNodeControls 0 ["restart"]) = 0) by reflexivity.
  split; [exact H | exact (proj1 (Merge_zero_timestamp_into_empty _ H))].
Defined.

(* ------------------------------------------------------------------------- *)
(** ** Further properties of the wire codec *)

Lemma decode_known_stream (l : list (wire * wire)) (nc nc' : NodeControls) (rest : list token) :
  known_entries l nc nc' ->
  CodecDecodeSelf nc (wire_tokens (WMap l) ++ rest)%list = DOk nc' rest.
Proof.
  intros Hk. rewrite wire_tokens_map. simpl app. rewrite CodecDecodeSelf_map.
  apply (decode_entries_known l nc nc' Hk); [lia | lia |].
  rewrite length_app. pose proof (entries_tokens_length l). lia.
Qed.

(** The encoding of any value is a payload of known keys that rebuilds the
    value from [MakeNodeControls()]. *)
Lemma CodecEncodeSelf_known (x : NodeControls) :
  exists l, CodecEncodeSelf x = WMap l /\ known_entries l MakeNodeControls x.
Proof.
  destruct x as [t cs]. unfold CodecEncodeSelf, encode_wireNodeControls. simpl.
  destruct (Z.eq_dec t 0) as [-> | Ht].
  - rewrite renderTime_zero. simpl. destruct cs as [|c cs]; eexists; split; try reflexivity.
    + constructor.
    + econstructor; [apply (KControls MakeNodeControls (c :: cs)) | constructor].
  - rewrite (proj2 (String.eqb_neq _ _) (renderTime_nonempty t Ht)).
    pose proof (KTimestamp MakeNodeControls (renderTime t)) as Kt.
    rewrite parseTime_renderTime in Kt by exact Ht.
    destruct cs as [|c cs]; eexists; split; try reflexivity.
    + econstructor; [exact Kt | constructor].
    + econstructor; [exact Kt|].
      econstructor; [apply (KControls _ (c :: cs)) | constructor].
Qed.

(** X8: every value, including one with the zero timestamp, survives
    [CodecEncodeSelf] then [CodecDecodeSelf] into a fresh
    [MakeNodeControls()], and the decode consumes exactly the encoding,
    leaving whatever follows it in the stream for the next value. *)
Theorem CodecEncodeSelf_roundtrip_stream (x : NodeControls) (rest : list token) :
  CodecDecodeSelf MakeNodeControls (wire_tokens (CodecEncodeSelf x) ++ rest)%list
  = DOk x rest.
Proof.
  destruct (CodecEncodeSelf_known x) as (l & -> & Hk).
  apply decode_known_stream, Hk.
Qed.





(** X11: a map payload whose first key is the empty string or nil fails:
    the key's bytes are empty and [&slc[0]] indexes out of range. *)
Theorem decode_empty_key_error (nc : NodeControls) (k v : wire) (l : list (wire * wire)) :
  k = WStr "" \/ k = WNil ->
  decode_into nc (WMap ((k, v) :: l)) = DErr "runtime error: index out of range".
Proof. intros [-> | ->]; reflexivity. Qed.

Lemma decode_empty_key_error_witness :
  (WStr "" = WStr "" \/ WStr "" = WNil) /\
  decode_into MakeNodeControls (WMap [(WStr "", WStr "x")])
  = DErr "runtime error: index out of range".
Proof.
  assert (H : WStr "" = WStr "" \/ WStr "" = WNil) by (left; reflexivity).
  split; [exact H | exact (decode_empty_key_error MakeNodeControls _ _ [] H)].
Defined.





